(** * A model of gilbreth_grasp_planning/src/robot_trajectory_executor.cpp

    The node [TrajExecutor] handles one pick-and-place target per tick of
    its execution timer ([executionTimerCb]).  This file embeds that
    callback, its [ScopeExit] cleanup guard, [executeTrajectory],
    [moveToWaitPose], [setGripper], [activateController], the
    [planTrajectory] wrapper and the attachment polling loop.

    External collaborators (planning, execution, gripper and controller
    services, the gripper state topic, the clock) are an environment
    record [Env] that fixes their answers for one cycle.  The effects the
    callback has on the outside world are recorded as a list of [event]s.
    The two ROS timers that run concurrently with the blocking calls of
    the cycle (the stop-on-attach and stop-on-detach monitors) are modelled
    as firing inside those blocking calls, at the points the environment
    chooses. *)

From Stdlib Require Import String ZArith List Bool Floats Lia Reals.
Import ListNotations.
Set Warnings "-inexact-float".

(** ** Eigen rotations

    [executionTimerCb] only combines quaternions with [operator*] and builds
    them from [Identity()] and [AngleAxisd(a, UnitZ())]; this is the
    interface it uses. *)
Class Rotations (Angle Quat : Type) := {
  q_identity : Quat;                 (* Eigen::Quaterniond::Identity() *)
  q_mul : Quat -> Quat -> Quat;      (* Eigen quaternion operator* *)
  angle_axis_z : Angle -> Quat;      (* Eigen::AngleAxisd(a, Vector3d::UnitZ()) *)
  m_pi : Angle                       (* M_PI *)
}.

(** The two move groups: [robot_rail_info_] (transport) and
    [robot_arm_info_] (manipulator).  Each has its own controller. *)
Inductive group := RobotRail | RobotArm.

Definition group_eqb (g h : group) : bool :=
  match g, h with
  | RobotRail, RobotRail | RobotArm, RobotArm => true
  | _, _ => false
  end.

Definition other_group (g : group) : group :=
  match g with RobotRail => RobotArm | RobotArm => RobotRail end.

Inductive segment := Approach | Pick | Retreat | Place.

Inductive monitor_mode := StopOnAttach | StopOnDetach.

(** Points of the cycle at which the stop-on-detach monitor
    ([monitor_gripper_funct], on the second thread of the spinner) can
    observe [gripper_attached_ == false] between its creation (line 403) and
    its stop (line 454): while the cycle blocks in the retreat planning call,
    in the controller activation that starts the retreat execution, in the
    retreat execution, in the controller deactivation that ends it, and the
    same four points for the place.  A firing anywhere else has the same
    effect as one of these: the cycle only reads [proceed] at lines 424 and
    442. *)
Inductive detach_point :=
  DuringRetreatPlan | BeforeRetreatExec | DuringRetreatExec | AfterRetreatExec
| DuringPlacePlan | BeforePlaceExec | DuringPlaceExec | AfterPlaceExec.

Definition detach_point_eqb (p q : detach_point) : bool :=
  match p, q with
  | DuringRetreatPlan, DuringRetreatPlan | BeforeRetreatExec, BeforeRetreatExec
  | DuringRetreatExec, DuringRetreatExec | AfterRetreatExec, AfterRetreatExec
  | DuringPlacePlan, DuringPlacePlan | BeforePlaceExec, BeforePlaceExec
  | DuringPlaceExec, DuringPlaceExec | AfterPlaceExec, AfterPlaceExec => true
  | _, _ => false
  end.

(** A planned trajectory, by the [time_from_start] of its waypoints, in
    nanoseconds: the first waypoint and the others. *)
Record Trajectory := {
  first_point : Z;
  rest_points : list Z
}.

(** [curateTrajectory]: the first waypoint's time is set to 0.01 s. *)
Definition curateTrajectory (jt : Trajectory) : Trajectory :=
  {| first_point := 10000000; rest_points := rest_points jt |}.

(** [points.back().time_from_start] *)
Definition traj_duration (jt : Trajectory) : Z :=
  last (rest_points jt) (first_point jt).

(** Answers of the external collaborators during one cycle. *)
Record Env := {
  plan_result : segment -> option Trajectory;
    (* plan_kinematic_path: trajectory, or a failed call / error code *)
  exec_ok : segment -> bool;
    (* MoveGroupInterface::execute returned SUCCESS *)
  gripper_ok : bool -> bool;
    (* VacuumGripperControl call succeeded and response.success *)
  now : Z;
    (* ros::Time::now() at the deadline check, in nanoseconds *)
  attached_during_pick : bool;
    (* the stop-on-attach monitor sees gripper_attached_ during the pick *)
  attach_sample : nat -> bool;
    (* gripper_attached_ at the k-th test of the polling loop *)
  detach_at : option detach_point
    (* where the stop-on-detach monitor sees the object detached *)
}.

Section Executor.

Context {Angle Quat : Type} `{ROT : Rotations Angle Quat}.

Record Pose := {
  position : float * float * float;
  orientation : Quat
}.

(** [geometry_msgs::PoseStamped]; [stamp] is [header.stamp] in nanoseconds. *)
Record PoseStamped := {
  stamp : Z;
  pose : Pose
}.

(** [gilbreth_msgs::TargetToolPoses] *)
Record TargetToolPoses := {
  pick_approach : PoseStamped;
  pick_pose : PoseStamped;
  pick_retreat : PoseStamped;
  place_pose : PoseStamped
}.

(** Effects of the callback on its collaborators. *)
Inductive event :=
| SwitchController (g : group) (activate : bool)  (* controller_manager/switch_controller *)
| GripperRequest (on : bool)                      (* gilbreth/gripper/control *)
| StopGroup (g : group)                           (* MoveGroupInterface::stop *)
| PlanRequest (s : segment) (g : group) (goal : PoseStamped) (z_tol : float)
| Execute (s : segment) (g : group) (jt : Trajectory)
| MoveToNamed (g : group) (async : bool)          (* move() or asyncMove() to the wait pose *)
| Sleep (d : Z)                                   (* ros::Duration(d).sleep(), nanoseconds *)
| StartMonitor (m : monitor_mode)                 (* monitor_attached_timer_ = createTimer(...) *)
| StopMonitor                                     (* monitor_attached_timer_.stop() *)
| ObjectDetached                                  (* ROS_ERROR "Object became detached" *)
| SetBusy (b : bool)                              (* busy_ = b *)
| WarnBusy.                                       (* ROS_WARN "Handling an object at the moment" *)

(** State threaded through one cycle: the local [proceed] flag, the member
    [busy_] and the events issued so far. *)
Record St := {
  proceed : bool;
  busy_flag : bool;
  trace : list event
}.

(** A state monad; [None] is an early [return] from the callback body. *)
Definition M (A : Type) : Type := St -> option A * St.

Definition ret {A} (a : A) : M A := fun s => (Some a, s).

Definition bind {A B} (m : M A) (k : A -> M B) : M B :=
  fun s => let (r, s1) := m s in
           match r with Some a => k a s1 | None => (None, s1) end.

Local Notation "x <- m ;; k" := (bind m (fun x => k))
  (at level 61, m at next level, right associativity).
Local Notation "m ;;; k" := (bind m (fun _ => k))
  (at level 61, right associativity).

Definition return_early : M unit := fun s => (None, s).

Definition emit (e : event) : M unit :=
  fun s => (Some tt, {| proceed := proceed s; busy_flag := busy_flag s;
                        trace := trace s ++ [e] |}).

Definition get_proceed : M bool := fun s => (Some (proceed s), s).

Definition set_proceed (b : bool) : M unit :=
  fun s => (Some tt, {| proceed := b; busy_flag := busy_flag s; trace := trace s |}).

Definition set_busy (b : bool) : M unit :=
  fun s => (Some tt, {| proceed := proceed s; busy_flag := b;
                        trace := trace s ++ [SetBusy b] |}).

Variable env : Env.
Variable prefered_pick_angle : Angle.

(** [setGripper] *)
Definition setGripper (on : bool) : M bool :=
  emit (GripperRequest on) ;;; ret (gripper_ok env on).

(** [activateController]; no caller looks at its result. *)
Definition activateController (g : group) (activate : bool) : M unit :=
  emit (SwitchController g activate).

(** [moveToWaitPose]; no caller of the cycle looks at its result. *)
Definition moveToWaitPose (async : bool) : M unit :=
  activateController RobotArm false ;;;
  activateController RobotRail true ;;;
  emit (MoveToNamed RobotRail async).

(** [executeTrajectory(robot_info, RobotPlan)]; [before], [during] and
    [after] are what the monitor timer does while the activation request,
    [execute] and the deactivation request block. *)
Definition executeTrajectory (g : group) (s : segment) (jt : Trajectory)
    (before during after : M unit) : M bool :=
  activateController g true ;;;
  before ;;;
  emit (Execute s g jt) ;;;
  during ;;;
  activateController g false ;;;
  after ;;;
  ret (exec_ok env s).

(** [planTrajectory]; the default [z_angle_tolerance] is 0.1. *)
Definition default_z_tolerance : float := 0.1.

Definition planTrajectory (s : segment) (g : group) (goal : PoseStamped)
    (z_tol : float) : M (option Trajectory) :=
  emit (PlanRequest s g goal z_tol) ;;;
  ret (option_map curateTrajectory (plan_result env s)).

(** [monitor_attached_funct] firing: the object is attached. *)
Definition monitor_attached_window : M unit :=
  if attached_during_pick env
  then emit (StopGroup RobotArm) ;;; emit StopMonitor
  else ret tt.

(** [monitor_gripper_funct] firing: the object is no longer attached. *)
Definition monitor_gripper_fires : M unit :=
  set_proceed false ;;;
  emit ObjectDetached ;;;
  emit (StopGroup RobotRail) ;;;
  emit (StopGroup RobotArm) ;;;
  emit StopMonitor.

Definition detach_window (p : detach_point) : M unit :=
  match detach_at env with
  | Some q => if detach_point_eqb p q then monitor_gripper_fires else ret tt
  | None => ret tt
  end.

(** [wait_until_attached_funct]: poll every [ros::Duration(0.01)]; the
    elapsed time is a double incremented by [wait_period.toSec()].  The
    fuel only bounds the recursion; the loop leaves after 200 rounds. *)
Definition WAIT_ATTACHED_TIME : float := 2.0.
Definition wait_period_ns : Z := 10000000.
Definition wait_period_toSec : float := 0 + 1e-9 * 10000000.
Definition wait_fuel : nat := 1000.

Fixpoint wait_loop (wait_time : float) (fuel k : nat) (time_elapsed : float)
    : M bool :=
  match fuel with
  | O => ret false
  | S fuel' =>
      if PrimFloat.ltb time_elapsed wait_time then
        if attach_sample env k then ret true
        else emit (Sleep wait_period_ns) ;;;
             wait_loop wait_time fuel' (S k) (time_elapsed + wait_period_toSec)
      else ret false
  end.

Definition wait_until_attached_funct (wait_time : float) : M bool :=
  wait_loop wait_time wait_fuel 0 0.

(** [rotate_pose_funct], applied to the [.pose] of a stamped pose. *)
Definition rotate_pose_funct (p : PoseStamped) (rot : Quat) : PoseStamped :=
  {| stamp := stamp p;
     pose := {| position := position (pose p);
                orientation := q_mul (orientation (pose p)) rot |} |}.

Definition pick_rotation : Quat :=
  q_mul q_identity (angle_axis_z prefered_pick_angle).

Definition place_rotation : Quat :=
  q_mul pick_rotation (angle_axis_z m_pi).

(** Lines 282-286. *)
Definition cycle_start : M unit :=
  activateController RobotArm false ;;;
  activateController RobotRail false ;;;
  _ <- setGripper false ;;
  emit (StopGroup RobotRail) ;;;
  emit (StopGroup RobotArm).

(** Lines 291-388: approach, pick with its deadline gate, grasp wait. *)
Definition pick_phase (t : TargetToolPoses) : M unit :=
  let approach_goal := rotate_pose_funct (pick_approach t) pick_rotation in
  approach_traj <- planTrajectory Approach RobotRail approach_goal default_z_tolerance ;;
  match approach_traj with
  | None => return_early
  | Some a =>
    _ <- executeTrajectory RobotRail Approach a (ret tt) (ret tt) (ret tt) ;;
    let pick_goal := rotate_pose_funct (pick_pose t) pick_rotation in
    pick_traj <- planTrajectory Pick RobotArm pick_goal default_z_tolerance ;;
    match pick_traj with
    | None => return_early
    | Some p =>
      let traj_dur := traj_duration p in
      let pick_time := stamp pick_goal in
      let current_time := now env in
      if Z.ltb pick_time (current_time + traj_dur)%Z then return_early else
      let wait_duration := ((pick_time - current_time) - traj_dur)%Z in
      emit (Sleep wait_duration) ;;;
      ok <- setGripper true ;;
      if negb ok then return_early else
      emit (StartMonitor StopOnAttach) ;;;
      _ <- executeTrajectory RobotArm Pick p (ret tt) monitor_attached_window (ret tt) ;;
      emit StopMonitor ;;;
      attached <- wait_until_attached_funct WAIT_ATTACHED_TIME ;;
      if negb attached then return_early else ret tt
    end
  end.

(** Lines 391-459: detach monitor, retreat, place, release. *)
Definition place_phase (t : TargetToolPoses) : M unit :=
  emit (StartMonitor StopOnDetach) ;;;
  let retreat_goal := rotate_pose_funct (pick_retreat t) pick_rotation in
  retreat_traj <- planTrajectory Retreat RobotArm retreat_goal default_z_tolerance ;;
  detach_window DuringRetreatPlan ;;;
  match retreat_traj with
  | None => return_early
  | Some r =>
    _ <- executeTrajectory RobotArm Retreat r (detach_window BeforeRetreatExec)
                         (detach_window DuringRetreatExec) (detach_window AfterRetreatExec) ;;
    p1 <- get_proceed ;;
    if negb p1 then return_early else
    let place_goal := rotate_pose_funct (place_pose t) place_rotation in
    place_traj <- planTrajectory Place RobotRail place_goal 3.14 ;;
    detach_window DuringPlacePlan ;;;
    match place_traj with
    | None => return_early
    | Some pl =>
      p2 <- get_proceed ;;
      if negb p2 then return_early else
      _ <- executeTrajectory RobotRail Place pl (detach_window BeforePlaceExec)
                         (detach_window DuringPlaceExec) (detach_window AfterPlaceExec) ;;
      emit StopMonitor ;;;
      ok <- setGripper false ;;
      if negb ok then return_early else ret tt
    end
  end.

Definition cycle_body (t : TargetToolPoses) : M unit :=
  cycle_start ;;; pick_phase t ;;; place_phase t.

(** [ScopeExit::~ScopeExit] *)
Definition scope_exit : M unit :=
  p <- get_proceed ;;
  (if negb p then moveToWaitPose false
   else moveToWaitPose true ;;; emit (Sleep 3000000000)) ;;;
  _ <- setGripper false ;;
  activateController RobotArm false ;;;
  activateController RobotRail false ;;;
  emit StopMonitor ;;;
  set_busy false.

(** The body followed by the guard, which runs on every return path;
    [s] is the state after [busy_ = true]. *)
Definition run_cycle (t : TargetToolPoses) (s : St) : St :=
  snd (scope_exit (snd (cycle_body t s))).

(** The members of [TrajExecutor] the callback reads and writes. *)
Record TrajExecutor := {
  targets_queue : list TargetToolPoses;
  busy : bool
}.

(** [executionTimerCb]: the executor state after the tick and the events.
    Lines 227-228 look both move groups up in [move_groups_map_]; the model
    is of a node that loaded both (without the rail group [run] has already
    stopped, see [run_start]; without the arm group line 286 dereferences a
    null pointer). *)
Definition executionTimerCb (ex : TrajExecutor) : TrajExecutor * list event :=
  match targets_queue ex with
  | [] => (ex, [])
  | t :: rest =>
    if busy ex then (ex, [WarnBusy])
    else
      let s0 := {| proceed := true; busy_flag := true; trace := [SetBusy true] |} in
      let s := run_cycle t s0 in
      ({| targets_queue := rest; busy := busy_flag s |}, trace s)
  end.

End Executor.

(** ** Concrete inputs *)

(** Rotations with no content, for inputs where orientations play no role. *)
#[export] Instance unit_rotations : Rotations unit unit :=
  {| q_identity := tt; q_mul := fun _ _ => tt; angle_axis_z := fun _ => tt;
     m_pi := tt |}.

Definition stamped_at (ts : Z) : @PoseStamped unit :=
  {| stamp := ts; pose := {| position := (0, 0, 0)%float; orientation := tt |} |}.

(** A target whose object reaches the pick point at [pick_ns]. *)
Definition target_at (pick_ns : Z) : @TargetToolPoses unit :=
  {| pick_approach := stamped_at pick_ns; pick_pose := stamped_at pick_ns;
     pick_retreat := stamped_at pick_ns; place_pose := stamped_at pick_ns |}.

(** A trajectory of two waypoints ending at [dur] nanoseconds. *)
Definition traj_of (dur : Z) : Trajectory :=
  {| first_point := 0; rest_points := [dur] |}.

(** Every service succeeds; planning succeeds unless [plan_fails] names
    the segment; the object is attached from poll [attach_from] on and
    detached at [detach]. *)
Definition env_of (plan_fails : segment -> bool) (t_now pick_dur : Z)
    (gripper_on : bool) (attach_from : nat) (detach : option detach_point) : Env :=
  {| plan_result := fun s => if plan_fails s then None else Some (traj_of pick_dur);
     exec_ok := fun _ => true;
     gripper_ok := fun on => if on then gripper_on else true;
     now := t_now;
     attached_during_pick := false;
     attach_sample := fun k => Nat.leb attach_from k;
     detach_at := detach |}.

Definition idle_with (t : @TargetToolPoses unit) : @TrajExecutor unit :=
  {| targets_queue := [t]; busy := false |}.

(** ** Shapes of traces *)

Section Shapes.

Context {Angle Quat : Type} `{ROT : Rotations Angle Quat}.

(** Lines 282-286 as events. *)
Definition start_events : list (@event Quat) :=
  [SwitchController RobotArm false; SwitchController RobotRail false;
   GripperRequest false; StopGroup RobotRail; StopGroup RobotArm].

(** The guard's events, for the [proceed] value it reads. *)
Definition guard_events (p : bool) : list (@event Quat) :=
  (if negb p
   then [SwitchController RobotArm false; SwitchController RobotRail true;
         MoveToNamed RobotRail false]
   else [SwitchController RobotArm false; SwitchController RobotRail true;
         MoveToNamed RobotRail true; Sleep 3000000000]) ++
  [GripperRequest false; SwitchController RobotArm false;
   SwitchController RobotRail false; StopMonitor; SetBusy false].

Variable env : Env.

(** The polling loop as a pure function: its result and how many times
    it slept. *)
Fixpoint wait_loop_res (wait_time : float) (fuel k : nat) (time_elapsed : float)
    : bool * nat :=
  match fuel with
  | O => (false, O)
  | S fuel' =>
      if PrimFloat.ltb time_elapsed wait_time then
        if attach_sample env k then (true, O)
        else let (b, n) := wait_loop_res wait_time fuel' (S k)
                              (time_elapsed + wait_period_toSec) in (b, S n)
      else (false, O)
  end.

Definition wait_res (wait_time : float) : bool * nat :=
  wait_loop_res wait_time wait_fuel 0 0.

Lemma wait_loop_eq (w : float) (fuel k : nat) (e : float) (s : @St Quat) :
  wait_loop env w fuel k e s =
  (Some (fst (wait_loop_res w fuel k e)),
   {| proceed := proceed s; busy_flag := busy_flag s;
      trace := trace s ++ repeat (Sleep wait_period_ns) (snd (wait_loop_res w fuel k e)) |}).
Proof.
  revert k e s; induction fuel as [|fuel IH]; intros k e s; cbn.
  - destruct s; cbn; rewrite app_nil_r; reflexivity.
  - destruct (PrimFloat.ltb e w).
    + destruct (attach_sample env k).
      * destruct s; cbn; rewrite app_nil_r; reflexivity.
      * cbv [bind emit]; rewrite IH; destruct (wait_loop_res w fuel (S k) _) as [b n].
        cbn; rewrite <- app_assoc; reflexivity.
    + destruct s; cbn; rewrite app_nil_r; reflexivity.
Qed.

Lemma wait_until_attached_eq (w : float) (s : @St Quat) :
  wait_until_attached_funct env w s =
  (Some (fst (wait_res w)),
   {| proceed := proceed s; busy_flag := busy_flag s;
      trace := trace s ++ repeat (Sleep wait_period_ns) (snd (wait_res w)) |}).
Proof. apply wait_loop_eq. Qed.

Lemma scope_exit_eq (s : @St Quat) :
  scope_exit env s =
  (Some tt, {| proceed := proceed s; busy_flag := false;
               trace := trace s ++ guard_events (proceed s) |}).
Proof.
  destruct s as [p b tr]; destruct p; cbv [scope_exit bind get_proceed set_busy emit
    moveToWaitPose setGripper activateController ret]; cbn; rewrite <- !app_assoc; reflexivity.
Qed.

Variable prefered_pick_angle : Angle.

(** Every tick that starts a cycle is the body followed by the guard. *)
Lemma executionTimerCb_cycle (t : TargetToolPoses) (rest : list TargetToolPoses) :
  executionTimerCb env prefered_pick_angle
    {| targets_queue := t :: rest; busy := false |} =
  (let s := snd (cycle_body env prefered_pick_angle t
                   {| proceed := true; busy_flag := true; trace := [SetBusy true] |}) in
   ({| targets_queue := rest; busy := false |},
    trace s ++ guard_events (proceed s))).
Proof.
  unfold executionTimerCb, run_cycle; cbn -[cycle_body scope_exit].
  rewrite scope_exit_eq; reflexivity.
Qed.

End Shapes.

(** Symbolic execution of a cycle in a hypothesis [H : cycle_body ... = ...]:
    unfold, and split on every answer of the environment the code tests. *)
Ltac exec_step H :=
  match type of H with
  | context [wait_until_attached_funct ?e ?w ?s] =>
      rewrite (wait_until_attached_eq e w s) in H;
      let Hw := fresh "Hwait" in destruct (wait_res e w) as [? ?] eqn:Hw
  | context [match ?x with _ => _ end] =>
      lazymatch type of x with (_ * _)%type => fail | _ => idtac end;
      lazymatch x with context [match _ with _ => _ end] => fail | _ => idtac end;
      let Hx := fresh "Hcase" in destruct x eqn:Hx
  end.

Ltac exec_cycle H :=
  cbv [cycle_body cycle_start pick_phase place_phase bind emit ret
       return_early get_proceed set_proceed set_busy setGripper
       activateController executeTrajectory planTrajectory
       monitor_attached_window monitor_gripper_fires detach_window
       negb option_map] in H;
  repeat (cbn -[wait_until_attached_funct wait_res Z.ltb traj_duration] in H;
          exec_step H);
  cbn -[wait_until_attached_funct wait_res Z.ltb traj_duration] in H.

Lemma skipn_suffix {A} (suffix l : list A) :
  skipn (length l - length suffix) l = suffix -> exists pre, l = pre ++ suffix.
Proof.
  intros H; exists (firstn (length l - length suffix) l).
  rewrite <- H at 2; symmetry; apply firstn_skipn.
Qed.

(** Closing the leaves of a symbolic execution: contradictory branches,
    then the state reached. *)
Ltac close_branch E :=
  match type of E with
  | (_, _) = (_, _) => injection E as <- <-
  end.

Ltac clean_hyps :=
  repeat match goal with
         | H : Some _ = Some _ |- _ => injection H as H; subst
         | H : ?x = Some _, H' : ?x = Some _ |- _ => rewrite H in H'
         end.

Ltac contra_branch :=
  clean_hyps;
  first [ congruence
        | match goal with
          | H : Z.ltb _ _ = true |- _ => apply Z.ltb_lt in H; lia
          | H : Z.ltb _ _ = false |- _ => apply Z.ltb_ge in H; lia
          end ].

Lemma in_repeat_app_inv {A} (x a : A) (n : nat) (l : list A) :
  In x (repeat a n ++ l) -> x = a \/ In x l.
Proof.
  intros H; apply in_app_or in H as [H|H]; [left|right; exact H].
  exact (repeat_spec n a x H).
Qed.

Ltac in_list H :=
  cbn in H; repeat rewrite <- app_assoc in H; cbn in H;
  repeat (first [destruct H as [H|H] | apply in_repeat_app_inv in H]);
  try discriminate; try contradiction.

Lemma infix_here {A} (x y : A) (l : list A) :
  exists pre post, x :: y :: l = pre ++ x :: y :: post.
Proof. exists [], l; reflexivity. Qed.

Lemma infix_cons {A} (x y a : A) (l : list A) :
  (exists pre post, l = pre ++ x :: y :: post) ->
  exists pre post, a :: l = pre ++ x :: y :: post.
Proof. intros (pre & post & ->); exists (a :: pre), post; reflexivity. Qed.

Ltac find_infix := cbn; repeat (first [apply infix_here | apply infix_cons]).

Ltac find_in :=
  cbn; repeat rewrite <- app_assoc; cbn;
  repeat (first [left; reflexivity | right | apply in_or_app; right; cbn]).

Section Claims.

Context {Angle Quat : Type} `{ROT : Rotations Angle Quat}.

(** C10: when the request to enable the grasp actuator fails after the
    deadline wait, the cycle ends without executing the pick trajectory:
    the last events before the guard's are the wait and the failed enable
    request, the only trajectory executed is the approach, and the guard
    runs. *)
Theorem gripper_enable_failure_aborts_before_pick
  (env : Env) (angle : Angle) (t : @TargetToolPoses Quat)
  (rest : list (@TargetToolPoses Quat)) (ja jp : Trajectory) :
  plan_result env Approach = Some ja ->
  plan_result env Pick = Some jp ->
  (now env + traj_duration (curateTrajectory jp) <= stamp (pick_pose t))%Z ->
  gripper_ok env true = false ->
  let '(ex', tr) :=
    executionTimerCb env angle {| targets_queue := t :: rest; busy := false |} in
  targets_queue ex' = rest /\ busy ex' = false /\
  (exists pre, tr = pre ++
     [Sleep ((stamp (pick_pose t) - now env) - traj_duration (curateTrajectory jp));
      GripperRequest true] ++ guard_events true) /\
  (forall s g jt, In (Execute s g jt) tr -> s = Approach).
Proof.
  intros Ha Hp Hgate Hg.
  rewrite executionTimerCb_cycle; cbn zeta.
  destruct (cycle_body env angle t _) as [r s1] eqn:E.
  exec_cycle E; try contra_branch.
  clean_hyps; close_branch E; cbn.
  split; [reflexivity|split; [reflexivity|split]].
  - apply skipn_suffix; reflexivity.
  - intros s g jt Hin. in_list Hin. congruence.
Qed.

(** C8: if no approach plan is found, the cycle issues no trajectory
    execution: its events are the start-of-cycle requests, the approach
    planning request and the guard; if the approach plan is found but its
    execution fails, the cycle goes on and requests the pick plan. *)
Theorem approach_failure_semantics
  (env : Env) (angle : Angle) (t : @TargetToolPoses Quat)
  (rest : list (@TargetToolPoses Quat)) :
  let '(ex', tr) :=
    executionTimerCb env angle {| targets_queue := t :: rest; busy := false |} in
  (plan_result env Approach = None ->
     tr = SetBusy true :: start_events ++
          [PlanRequest Approach RobotRail
             (rotate_pose_funct (pick_approach t) (pick_rotation angle))
             default_z_tolerance] ++ guard_events true /\
     (forall s g jt, ~ In (Execute s g jt) tr)) /\
  (forall ja, plan_result env Approach = Some ja -> exec_ok env Approach = false ->
     In (Execute Approach RobotRail (curateTrajectory ja)) tr /\
     In (PlanRequest Pick RobotArm
           (rotate_pose_funct (pick_pose t) (pick_rotation angle))
           default_z_tolerance) tr).
Proof.
  rewrite executionTimerCb_cycle; cbn zeta.
  destruct (cycle_body env angle t _) as [r s1] eqn:E.
  split.
  - intros Ha.
    exec_cycle E; try contra_branch.
    clean_hyps; close_branch E; cbn.
    split; [reflexivity|].
    intros s g jt Hin; in_list Hin.
  - intros ja Ha He.
    exec_cycle E; try contra_branch; clean_hyps; close_branch E;
      split; find_in.
Qed.

(** C1, as amended: once the approach and pick plans are found, with
    [d] the [time_from_start] of the pick trajectory's last waypoint,
    [ref] the pick pose's stamp and [now] the one clock reading of the
    gate: if [now + d > ref] the cycle aborts right after the pick plan
    request (its last events are that request and the guard's), without
    requesting the grasp actuator and without executing the pick
    trajectory or planning or executing the retreat and place; otherwise it
    sleeps exactly [(ref - now) - d] immediately before requesting the
    grasp actuator, and it executes the pick trajectory if and only if
    that request succeeds. *)
Theorem deadline_gate
  (env : Env) (angle : Angle) (t : @TargetToolPoses Quat)
  (rest : list (@TargetToolPoses Quat)) (ja jp : Trajectory) :
  plan_result env Approach = Some ja ->
  plan_result env Pick = Some jp ->
  let d := traj_duration (curateTrajectory jp) in
  let ref := stamp (pick_pose t) in
  let '(_, tr) :=
    executionTimerCb env angle {| targets_queue := t :: rest; busy := false |} in
  ((now env + d > ref)%Z ->
     (exists pre, tr = pre ++
        PlanRequest Pick RobotArm (rotate_pose_funct (pick_pose t) (pick_rotation angle))
          default_z_tolerance :: guard_events true) /\
     (forall jt, ~ In (Execute Pick RobotArm jt) tr) /\
     ~ In (GripperRequest true) tr /\
     (forall s g goal tol, In (PlanRequest s g goal tol) tr -> s = Approach \/ s = Pick) /\
     (forall s g jt, In (Execute s g jt) tr -> s = Approach)) /\
  ((now env + d <= ref)%Z ->
     (exists pre post,
        tr = pre ++ Sleep ((ref - now env) - d) :: GripperRequest true :: post) /\
     (In (Execute Pick RobotArm (curateTrajectory jp)) tr <->
      gripper_ok env true = true)).
Proof.
  intros Ha Hp d ref.
  rewrite executionTimerCb_cycle; cbn zeta.
  destruct (cycle_body env angle t _) as [r s1] eqn:E.
  split; intros Hgate; subst d ref.
  - exec_cycle E; try contra_branch.
    clean_hyps; close_branch E; cbn.
    split; [apply skipn_suffix; reflexivity|].
    split; [intros jt Hin|split; [intros Hin|split]]; try (in_list Hin; fail).
    + intros s g goal tol Hin; in_list Hin; injection Hin as <- _ _ _; auto.
    + intros s g jt Hin; in_list Hin; injection Hin as <- _ _; reflexivity.
  - exec_cycle E; try contra_branch; clean_hyps; close_branch E;
      (split; [find_infix|]);
      try (split; [intros _; reflexivity|intros _; find_in]).
    all: split; [intros Hin; in_list Hin|discriminate].
Qed.

End Claims.

(** ** Concrete runs *)

(** Approach and pick plans found, the pick trajectory lasting 2 s, the
    object due 5 s after the gate's clock reading. *)
Definition env_on_time (gripper_on : bool) : Env :=
  env_of (fun _ => false) 0 2000000000 gripper_on 0 None.

Lemma gripper_enable_failure_aborts_before_pick_witness :
  (0 + traj_duration (curateTrajectory (traj_of 2000000000)) <=
   stamp (pick_pose (target_at 5000000000)))%Z /\
    targets_queue (fst (executionTimerCb (env_on_time false) tt
                        (idle_with (target_at 5000000000)))) = [].
Proof.
  split; [cbn; lia|].
  pose proof (gripper_enable_failure_aborts_before_pick (env_on_time false) tt
                (target_at 5000000000) [] (traj_of 2000000000) (traj_of 2000000000)
                eq_refl eq_refl ltac:(cbn; lia) eq_refl) as H.
  exact (proj1 H).
Defined.

(** Planning fails for the approach segment only. *)
Definition env_approach_unplannable : Env :=
  env_of (fun s => match s with Approach => true | _ => false end)
         0 2000000000 true 0 None.

Lemma approach_failure_semantics_witness :
  plan_result env_approach_unplannable Approach = None /\
  (forall s g jt, ~ In (Execute s g jt)
     (snd (executionTimerCb env_approach_unplannable tt
             (idle_with (target_at 5000000000))))).
Proof.
  split; [reflexivity|].
  pose proof (approach_failure_semantics env_approach_unplannable tt
                (target_at 5000000000) []) as H.
  unfold idle_with.
  destruct (executionTimerCb env_approach_unplannable tt _) as [ex tr].
  exact (proj2 (proj1 H eq_refl)).
Defined.

Lemma deadline_gate_witness :
  plan_result (env_on_time true) Pick = Some (traj_of 2000000000) /\
  exists pre post,
    snd (executionTimerCb (env_on_time true) tt (idle_with (target_at 5000000000))) =
    pre ++ Sleep 3000000000 :: GripperRequest true :: post.
Proof.
  split; [reflexivity|].
  pose proof (deadline_gate (env_on_time true) tt (target_at 5000000000) []
                (traj_of 2000000000) (traj_of 2000000000) eq_refl eq_refl) as H.
  cbv zeta in H; unfold idle_with.
  destruct (executionTimerCb (env_on_time true) tt _) as [ex tr].
  destruct H as [_ H].
  exact (proj1 (H ltac:(cbn; lia))).
Defined.

(** C1 as stated fails: with the gate passed (0 + 2 s <= 5 s) and the
    grasp-actuator request failing, the cycle still ends without the pick
    motion, so "no pick motion" does not imply [now + d > ref]. *)
Lemma deadline_gate_not_sole_abort_cause :
  ~ ((forall jt, ~ In (Execute Pick RobotArm jt)
        (snd (executionTimerCb (env_on_time false) tt
                (idle_with (target_at 5000000000))))) <->
     (now (env_on_time false) + traj_duration (curateTrajectory (traj_of 2000000000)) >
      stamp (pick_pose (target_at 5000000000)))%Z).
Proof.
  intros [H _].
  assert (Hn : forall jt, ~ In (Execute Pick RobotArm jt)
                 (snd (executionTimerCb (env_on_time false) tt
                         (idle_with (target_at 5000000000))))).
  { intros jt Hin; vm_compute in Hin; in_list Hin. }
  specialize (H Hn); vm_compute in H; discriminate.
Qed.

(** ** Requested controller and gripper states *)

(** The state each controller was last asked to be in, starting from [c]. *)
Definition set_ctrl (c : group -> bool) (g : group) (b : bool) : group -> bool :=
  fun h => if group_eqb g h then b else c h.

Fixpoint requested_controllers {Quat} (c : group -> bool) (l : list (@event Quat))
    : group -> bool :=
  match l with
  | [] => c
  | SwitchController g b :: l' => requested_controllers (set_ctrl c g b) l'
  | _ :: l' => requested_controllers c l'
  end.

(** The gripper state last requested, starting from [on]. *)
Fixpoint requested_gripper {Quat} (on : bool) (l : list (@event Quat)) : bool :=
  match l with
  | [] => on
  | GripperRequest b :: l' => requested_gripper b l'
  | _ :: l' => requested_gripper on l'
  end.



Section Claims2.

Context {Angle Quat : Type} `{ROT : Rotations Angle Quat}.


(** C6: a tick with an empty queue changes nothing and issues nothing; a
    tick while [busy_] is set only logs and leaves the queue and the flag
    as they were; otherwise it removes exactly the front target, handles
    that target, and sets [busy_] before anything else. *)
Theorem tick_dequeues_one_when_idle
  (env : Env) (angle : Angle) (ex : @TrajExecutor Quat) :
  let '(ex', tr) := executionTimerCb env angle ex in
  match targets_queue ex with
  | [] => ex' = ex /\ tr = []
  | t :: rest =>
      if busy ex then ex' = ex /\ tr = [WarnBusy]
      else targets_queue ex' = rest /\
           tr = trace (run_cycle env angle t
                         {| proceed := true; busy_flag := true;
                            trace := [SetBusy true] |}) /\
           exists l, tr = SetBusy true :: l
  end.
Proof.
  destruct ex as [[|t rest] b]; cbn -[run_cycle]; [split; reflexivity|].
  destruct b; [split; reflexivity|].
  split; [reflexivity|split; [reflexivity|]].
  unfold run_cycle; rewrite scope_exit_eq; cbn -[cycle_body].
  destruct (cycle_body env angle t _) as [r s1] eqn:E.
  exec_cycle E; clean_hyps; close_branch E; eexists; reflexivity.
Qed.

End Claims2.

(** C2 fails at this input: the approach plan is not found, the body
    returns early with [proceed] still true, and the guard moves the rail
    asynchronously (then pauses 3 s) instead of synchronously. *)
Lemma approach_plan_failure_leaves_proceed_true :
  proceed (snd (cycle_body env_approach_unplannable tt (target_at 5000000000)
                 {| proceed := true; busy_flag := true; trace := [SetBusy true] |})) = true /\
  In (MoveToNamed RobotRail true)
     (snd (executionTimerCb env_approach_unplannable tt (idle_with (target_at 5000000000)))) /\
  ~ In (MoveToNamed RobotRail false)
     (snd (executionTimerCb env_approach_unplannable tt (idle_with (target_at 5000000000)))).
Proof.
  split; [vm_compute; reflexivity|split].
  - vm_compute; find_in.
  - intros Hin; vm_compute in Hin; in_list Hin.
Qed.

(** ** The attachment polling window *)

(** [time_elapsed] after [j] rounds of the polling loop. *)
Fixpoint elapsed_after (j : nat) : float :=
  match j with
  | O => 0
  | S j' => elapsed_after j' + wait_period_toSec
  end.

(** With the 2.0 s bound, the loop condition holds exactly for rounds
    0..199: the loop tests the attachment at most 200 times. *)
Definition attach_polls : nat := 200.

Lemma elapsed_before_bound_check :
  forallb (fun j => PrimFloat.ltb (elapsed_after j) WAIT_ATTACHED_TIME)
          (seq 0 attach_polls) = true.
Proof. vm_compute; reflexivity. Qed.

Lemma elapsed_before_bound (j : nat) :
  (j < attach_polls)%nat -> PrimFloat.ltb (elapsed_after j) WAIT_ATTACHED_TIME = true.
Proof.
  intros Hj.
  pose proof elapsed_before_bound_check as H.
  rewrite forallb_forall in H; apply H, in_seq; lia.
Qed.

Lemma elapsed_at_bound :
  PrimFloat.ltb (elapsed_after attach_polls) WAIT_ATTACHED_TIME = false.
Proof. vm_compute; reflexivity. Qed.

Lemma wait_loop_res_window (env : Env) (m k fuel : nat) :
  (k + m = attach_polls)%nat -> (m < fuel)%nat ->
  wait_loop_res env WAIT_ATTACHED_TIME fuel k (elapsed_after k) =
  if existsb (attach_sample env) (seq k m) then (true, snd (wait_loop_res env WAIT_ATTACHED_TIME fuel k (elapsed_after k)))
  else (false, m).
Proof.
  revert k fuel; induction m as [|m IH]; intros k fuel Hkm Hf;
    destruct fuel as [|fuel]; try lia; cbn [wait_loop_res].
  - replace k with attach_polls by lia; rewrite elapsed_at_bound; reflexivity.
  - rewrite elapsed_before_bound by lia; cbn [seq existsb].
    destruct (attach_sample env k); [reflexivity|cbn [orb]].
    change (elapsed_after k + wait_period_toSec)%float with (elapsed_after (S k)).
    rewrite (IH (S k) fuel) by lia.
    destruct (existsb (attach_sample env) (seq (S k) m)); reflexivity.
Qed.

Lemma wait_res_window (env : Env) :
  wait_res env WAIT_ATTACHED_TIME =
  if existsb (attach_sample env) (seq 0 attach_polls)
  then (true, snd (wait_res env WAIT_ATTACHED_TIME))
  else (false, attach_polls).
Proof.
  apply (wait_loop_res_window env attach_polls 0 wait_fuel); vm_compute; lia.
Qed.

Lemma wait_res_timeout (env : Env) :
  (forall k, (k < attach_polls)%nat -> attach_sample env k = false) ->
  wait_res env WAIT_ATTACHED_TIME = (false, attach_polls).
Proof.
  intros H; rewrite wait_res_window.
  destruct (existsb (attach_sample env) (seq 0 attach_polls)) eqn:E; [|reflexivity].
  apply existsb_exists in E as (k & Hk & Hs); apply in_seq in Hk.
  rewrite H in Hs by lia; discriminate.
Qed.

Lemma wait_res_attached (env : Env) :
  (exists k, (k < attach_polls)%nat /\ attach_sample env k = true) ->
  fst (wait_res env WAIT_ATTACHED_TIME) = true.
Proof.
  intros (k & Hk & Hs); rewrite wait_res_window.
  destruct (existsb (attach_sample env) (seq 0 attach_polls)) eqn:E; [reflexivity|].
  assert (existsb (attach_sample env) (seq 0 attach_polls) = true) as E'
    by (apply existsb_exists; exists k; split; [apply in_seq; lia|exact Hs]).
  congruence.
Qed.

Section Claims3.

Context {Angle Quat : Type} `{ROT : Rotations Angle Quat}.

(** C7: once the cycle reaches the attachment wait (plans found, gate
    passed, grasp actuator enabled): if the attachment is false at all 200
    tests of the polling loop (every 0.01 s, up to 2.0 s), the cycle ends
    after the 200 polling sleeps with the guard, and neither plans nor
    executes the retreat or the place; if the attachment is true at one of
    these tests, the cycle starts the detach monitor and goes on to plan
    the retreat. *)
Theorem grasp_timeout_aborts
  (env : Env) (angle : Angle) (t : @TargetToolPoses Quat)
  (rest : list (@TargetToolPoses Quat)) (ja jp : Trajectory) :
  plan_result env Approach = Some ja ->
  plan_result env Pick = Some jp ->
  (now env + traj_duration (curateTrajectory jp) <= stamp (pick_pose t))%Z ->
  gripper_ok env true = true ->
  let '(_, tr) :=
    executionTimerCb env angle {| targets_queue := t :: rest; busy := false |} in
  ((forall k, (k < attach_polls)%nat -> attach_sample env k = false) ->
     (exists pre, tr = pre ++ repeat (Sleep wait_period_ns) attach_polls ++
                       guard_events true) /\
     (forall s g goal tol, In (PlanRequest s g goal tol) tr -> s = Approach \/ s = Pick) /\
     (forall s g jt, In (Execute s g jt) tr -> s = Approach \/ s = Pick)) /\
  ((exists k, (k < attach_polls)%nat /\ attach_sample env k = true) ->
     In (StartMonitor StopOnDetach) tr /\
     In (PlanRequest Retreat RobotArm
           (rotate_pose_funct (pick_retreat t) (pick_rotation angle))
           default_z_tolerance) tr).
Proof.
  intros Ha Hp Hgate Hg.
  rewrite executionTimerCb_cycle; cbn zeta.
  destruct (cycle_body env angle t _) as [r s1] eqn:E.
  split; intros Hw.
  - pose proof (wait_res_timeout env Hw) as Ht.
    exec_cycle E; try contra_branch;
      try (rewrite Ht in Hwait; inversion Hwait; subst; fail).
    all: clean_hyps; assert (n = attach_polls) as -> by congruence.
    all: close_branch E.
    all: split; [apply skipn_suffix; reflexivity|].
    all: split; [intros s g goal tol Hin|intros s g jt Hin]; in_list Hin;
      (injection Hin; intros; subst; auto).
  - pose proof (wait_res_attached env Hw) as Ht.
    exec_cycle E; try contra_branch;
      try (rewrite Hwait in Ht; cbn in Ht; congruence).
    all: clean_hyps; try (cbn in Ht; discriminate).
    all: close_branch E; split; find_in.
Qed.

End Claims3.

Lemma grasp_timeout_aborts_witness :
  gripper_ok (env_on_time true) true = true /\
  In (StartMonitor StopOnDetach)
     (snd (executionTimerCb (env_on_time true) tt (idle_with (target_at 5000000000)))).
Proof.
  split; [reflexivity|].
  pose proof (grasp_timeout_aborts (env_on_time true) tt (target_at 5000000000) []
                (traj_of 2000000000) (traj_of 2000000000) eq_refl eq_refl
                ltac:(cbn; lia) eq_refl) as H.
  unfold idle_with.
  destruct (executionTimerCb (env_on_time true) tt _) as [ex tr].
  destruct H as [_ H].
  exact (proj1 (H (ex_intro _ 0%nat (conj (Nat.lt_0_succ 199) eq_refl)))).
Defined.

(** ** What follows a detach *)

(** The events after the first [ObjectDetached], i.e. after
    [monitor_gripper_funct] set [proceed] to false. *)
Fixpoint after_detach {Quat} (l : list (@event Quat)) : list (@event Quat) :=
  match l with
  | [] => []
  | ObjectDetached :: r => r
  | _ :: r => after_detach r
  end.

(** The segments whose trajectories are sent to [execute]. *)
Fixpoint executed_segments {Quat} (l : list (@event Quat)) : list segment :=
  match l with
  | [] => []
  | Execute s _ _ :: r => s :: executed_segments r
  | _ :: r => executed_segments r
  end.

Lemma after_detach_repeat_sleep {Quat} (d : Z) (n : nat) (l : list (@event Quat)) :
  after_detach (repeat (Sleep d) n ++ l) = after_detach l.
Proof. induction n as [|n IH]; [reflexivity|exact IH]. Qed.

Ltac norm_detach :=
  cbn; repeat rewrite <- app_assoc; cbn;
  repeat (rewrite after_detach_repeat_sleep; cbn).

(** [x] occurs in [l] and [y] occurs after it. *)
Lemma ordered_here {A} (x y : A) (l : list A) :
  (exists mid post, l = mid ++ y :: post) ->
  exists pre mid post, x :: l = pre ++ x :: mid ++ y :: post.
Proof. intros (mid & post & ->); exists [], mid, post; reflexivity. Qed.

Lemma ordered_cons {A} (x y a : A) (l : list A) :
  (exists pre mid post, l = pre ++ x :: mid ++ y :: post) ->
  exists pre mid post, a :: l = pre ++ x :: mid ++ y :: post.
Proof. intros (pre & mid & post & ->); exists (a :: pre), mid, post; reflexivity. Qed.

Lemma ordered_app {A} (x y : A) (a l : list A) :
  (exists pre mid post, l = pre ++ x :: mid ++ y :: post) ->
  exists pre mid post, a ++ l = pre ++ x :: mid ++ y :: post.
Proof.
  intros (pre & mid & post & ->); exists (a ++ pre), mid, post.
  rewrite <- app_assoc; reflexivity.
Qed.

Lemma member_here {A} (y : A) (l : list A) : exists mid post, y :: l = mid ++ y :: post.
Proof. exists [], l; reflexivity. Qed.

Lemma member_cons {A} (y a : A) (l : list A) :
  (exists mid post, l = mid ++ y :: post) -> exists mid post, a :: l = mid ++ y :: post.
Proof. intros (mid & post & ->); exists (a :: mid), post; reflexivity. Qed.

Lemma member_app {A} (y : A) (a l : list A) :
  (exists mid post, l = mid ++ y :: post) -> exists mid post, a ++ l = mid ++ y :: post.
Proof.
  intros (mid & post & ->); exists (a ++ mid), post; rewrite <- app_assoc; reflexivity.
Qed.

Lemma suffix_cons {A} (a : A) (l suf : list A) :
  (exists pre, l = pre ++ suf) -> exists pre, a :: l = pre ++ suf.
Proof. intros (pre & ->); exists (a :: pre); reflexivity. Qed.

Lemma suffix_app {A} (a l suf : list A) :
  (exists pre, l = pre ++ suf) -> exists pre, a ++ l = pre ++ suf.
Proof. intros (pre & ->); exists (a ++ pre); rewrite app_assoc; reflexivity. Qed.

Ltac find_suffix :=
  cbn; repeat rewrite <- app_assoc; cbn;
  repeat first [exists []; reflexivity | apply suffix_cons | apply suffix_app].

Ltac find_member :=
  solve [repeat first [apply member_here | apply member_cons | apply member_app]].

Ltac find_ordered :=
  cbn; repeat rewrite <- app_assoc; cbn;
  repeat first [ apply ordered_here; find_member | apply ordered_cons | apply ordered_app ].

Section Claims4.

Context {Angle Quat : Type} `{ROT : Rotations Angle Quat}.

(** C4 (code bug): [proceed] becoming false does not stop all further
    motion.  In a cycle that reaches the retreat, a detach seen while the
    retreat is planned or while its controller is being activated is
    followed by the execution of the retreat trajectory, which no test of
    [proceed] guards; a detach seen after the test at line 442, while the
    rail controller is being activated for the place, is followed by the
    execution of the place trajectory.  These are the only trajectories
    executed after a detach, and the cycle then ends with the guard's
    synchronous return sequence. *)
Theorem detach_does_not_stop_motion
  (env : Env) (angle : Angle) (t : @TargetToolPoses Quat)
  (rest : list (@TargetToolPoses Quat)) (ja jp jr jl : Trajectory) :
  plan_result env Approach = Some ja ->
  plan_result env Pick = Some jp ->
  (now env + traj_duration (curateTrajectory jp) <= stamp (pick_pose t))%Z ->
  gripper_ok env true = true ->
  fst (wait_res env WAIT_ATTACHED_TIME) = true ->
  plan_result env Retreat = Some jr ->
  plan_result env Place = Some jl ->
  let tr :=
    snd (executionTimerCb env angle {| targets_queue := t :: rest; busy := false |}) in
  ((detach_at env = Some DuringRetreatPlan \/ detach_at env = Some BeforeRetreatExec) ->
     exists pre mid post,
       tr = pre ++ ObjectDetached :: mid ++ Execute Retreat RobotArm (curateTrajectory jr) :: post) /\
  (detach_at env = Some BeforePlaceExec ->
     exists pre mid post,
       tr = pre ++ ObjectDetached :: mid ++ Execute Place RobotRail (curateTrajectory jl) :: post) /\
  (forall s, In s (executed_segments (after_detach tr)) ->
     (s = Retreat /\ (detach_at env = Some DuringRetreatPlan \/
                      detach_at env = Some BeforeRetreatExec)) \/
     (s = Place /\ detach_at env = Some BeforePlaceExec)) /\
  (In ObjectDetached tr -> exists pre, tr = pre ++ guard_events false).
Proof.
  intros Ha Hp Hgate Hg Hw Hr Hl tr; subst tr.
  rewrite executionTimerCb_cycle; cbn zeta.
  destruct (cycle_body env angle t _) as [r s1] eqn:E.
  exec_cycle E; try contra_branch.
  all: clean_hyps; close_branch E.
  all: split; [intros [Hd|Hd]; try discriminate; find_ordered|].
  all: split; [intros Hd; try discriminate; find_ordered|].
  all: split; [norm_detach; intros s Hin; in_list Hin; subst;
               first [ left; split; [reflexivity|first [left; reflexivity|right; reflexivity]]
                     | right; split; reflexivity ]|].
  all: intros Hin; first [solve [find_suffix] | in_list Hin].
Qed.

End Claims4.

(** The retreat and place trajectories each executed after the detach. *)
Lemma detach_does_not_stop_motion_witness :
  (0 + traj_duration (curateTrajectory (traj_of 2000000000)) <=
   stamp (pick_pose (target_at 5000000000)))%Z /\
  fst (wait_res (env_of (fun _ => false) 0 2000000000 true 0 (Some BeforePlaceExec))
         WAIT_ATTACHED_TIME) = true /\
  exists pre mid post,
    snd (executionTimerCb (env_of (fun _ => false) 0 2000000000 true 0 (Some BeforePlaceExec))
           tt (idle_with (target_at 5000000000))) =
    pre ++ ObjectDetached :: mid ++ Execute Place RobotRail (curateTrajectory (traj_of 2000000000))
        :: post.
Proof.
  split; [cbn; lia|split; [vm_compute; reflexivity|]].
  pose proof (detach_does_not_stop_motion
                (env_of (fun _ => false) 0 2000000000 true 0 (Some BeforePlaceExec)) tt
                (target_at 5000000000) [] (traj_of 2000000000) (traj_of 2000000000)
                (traj_of 2000000000) (traj_of 2000000000)
                eq_refl eq_refl ltac:(cbn; lia) eq_refl ltac:(vm_compute; reflexivity)
                eq_refl eq_refl) as H.
  exact (proj1 (proj2 H) eq_refl).
Defined.

(** ** Controller handover *)

(** Walks the events with the requested controller states [c]: every
    activation of a group's controller is asked for while the other one is
    requested inactive, and every execution on a group happens while its
    own controller is requested active and the other one inactive. *)
Fixpoint handover_ok {Quat} (c : group -> bool) (l : list (@event Quat)) : bool :=
  match l with
  | [] => true
  | SwitchController g true :: r =>
      negb (c (other_group g)) && handover_ok (set_ctrl c g true) r
  | SwitchController g false :: r => handover_ok (set_ctrl c g false) r
  | Execute _ g _ :: r => c g && negb (c (other_group g)) && handover_ok c r
  | _ :: r => handover_ok c r
  end.

Definition both_active (c : group -> bool) : bool := c RobotRail && c RobotArm.

Lemma handover_ok_app {Quat} (c : group -> bool) (l1 l2 : list (@event Quat)) :
  handover_ok c (l1 ++ l2) =
  handover_ok c l1 && handover_ok (requested_controllers c l1) l2.
Proof.
  revert c; induction l1 as [|e l1 IH]; intros c; [reflexivity|].
  destruct e as [g [|]| | | | | | | | | | |]; cbn; rewrite ?IH;
    repeat rewrite andb_assoc; reflexivity.
Qed.

Lemma handover_ok_repeat_sleep {Quat} (c : group -> bool) (d : Z) (n : nat)
    (l : list (@event Quat)) :
  handover_ok c (repeat (Sleep d) n ++ l) = handover_ok c l.
Proof. induction n as [|n IH]; [reflexivity|exact IH]. Qed.

Lemma handover_ok_execute {Quat} (c : group -> bool) (pre post : list (@event Quat))
    (s : segment) (g : group) (jt : Trajectory) :
  handover_ok c (pre ++ Execute s g jt :: post) = true ->
  requested_controllers c pre g = true /\
  requested_controllers c pre (other_group g) = false.
Proof.
  rewrite handover_ok_app; cbn; intros H.
  apply andb_prop in H as [_ H]; apply andb_prop in H as [H _].
  apply andb_prop in H as [H1 H2]; split; [exact H1|].
  destruct (requested_controllers c pre (other_group g)); [discriminate|reflexivity].
Qed.

Lemma handover_ok_activate {Quat} (c : group -> bool) (pre post : list (@event Quat))
    (g : group) :
  handover_ok c (pre ++ SwitchController g true :: post) = true ->
  requested_controllers c pre (other_group g) = false.
Proof.
  rewrite handover_ok_app; cbn; intros H.
  apply andb_prop in H as [_ H]; apply andb_prop in H as [H _].
  destruct (requested_controllers c pre (other_group g)); [discriminate|reflexivity].
Qed.

Lemma handover_ok_at_most_one {Quat} (c : group -> bool) (pre post : list (@event Quat)) :
  handover_ok c (pre ++ post) = true -> both_active c = false ->
  both_active (requested_controllers c pre) = false.
Proof.
  revert c; induction pre as [|e pre IH]; intros c H Hc; [exact Hc|].
  destruct e as [g [|]| | | | | | | | | | |]; cbn in H |- *;
    try (apply IH; assumption).
  - apply andb_prop in H as [H1 H]; apply IH; [exact H|].
    unfold both_active, set_ctrl in *.
    destruct g; cbn in *; destruct (c RobotRail), (c RobotArm); cbn in *;
      congruence.
  - apply IH; [exact H|].
    unfold both_active, set_ctrl in *.
    destruct g; cbn in *; destruct (c RobotRail), (c RobotArm); cbn in *;
      congruence.
  - apply andb_prop in H as [_ H]; apply IH; assumption.
Qed.

Section Claims5.

Context {Angle Quat : Type} `{ROT : Rotations Angle Quat}.

Lemma cycle_handover_ok
  (env : Env) (angle : Angle) (t : @TargetToolPoses Quat)
  (rest : list (@TargetToolPoses Quat)) (c0 : group -> bool) :
  let tr :=
    snd (executionTimerCb env angle {| targets_queue := t :: rest; busy := false |}) in
  handover_ok c0 tr = true /\
  exists l, tr = SetBusy true :: SwitchController RobotArm false :: l.
Proof.
  rewrite executionTimerCb_cycle; cbn zeta.
  destruct (cycle_body env angle t _) as [r s1] eqn:E.
  exec_cycle E; try contra_branch.
  all: clean_hyps; close_branch E; split; [|eexists; reflexivity].
  all: cbn; repeat rewrite <- app_assoc; cbn;
       repeat (rewrite handover_ok_repeat_sleep; cbn).
  all: destruct (c0 RobotRail), (c0 RobotArm); reflexivity.
Qed.

(** C5: whatever the controllers' states before the tick ([c0]), each
    trajectory execution on a group is issued while that group's controller
    was last asked to be active and the other group's controller was last
    asked to be inactive; each activation is asked for only after the other
    group's controller was asked to stop (break before make); and from the
    cycle's first request on, the two controllers are never both requested
    active. *)
Theorem handover_break_before_make
  (env : Env) (angle : Angle) (t : @TargetToolPoses Quat)
  (rest : list (@TargetToolPoses Quat)) (c0 : group -> bool) :
  let tr :=
    snd (executionTimerCb env angle {| targets_queue := t :: rest; busy := false |}) in
  (forall pre s g jt post, tr = pre ++ Execute s g jt :: post ->
     requested_controllers c0 pre g = true /\
     requested_controllers c0 pre (other_group g) = false) /\
  (forall pre g post, tr = pre ++ SwitchController g true :: post ->
     requested_controllers c0 pre (other_group g) = false) /\
  (forall pre post, tr = pre ++ post ->
     (length pre <= 1)%nat \/ both_active (requested_controllers c0 pre) = false).
Proof.
  cbv zeta; destruct (cycle_handover_ok env angle t rest c0) as [Hok [l Hl]].
  set (tr := snd _) in *.
  split; [|split].
  - intros pre s g jt post Htr; rewrite Htr in Hok.
    exact (handover_ok_execute c0 pre post s g jt Hok).
  - intros pre g post Htr; rewrite Htr in Hok.
    exact (handover_ok_activate c0 pre post g Hok).
  - intros [|e1 [|e2 pre]] post Htr; [left; cbn; lia|left; cbn; lia|right].
    rewrite Hl in Htr; injection Htr as <- <- Htr.
    rewrite Hl in Hok; cbn in Hok; rewrite Htr in Hok.
    cbn; apply (handover_ok_at_most_one _ pre post Hok).
    unfold both_active; cbn; apply andb_false_r.
Qed.

End Claims5.

(** ** Goal poses and tolerances of the plan requests *)

(** The target pose each segment plans to, as [executionTimerCb] picks it. *)
Definition segment_pose {Quat} (s : segment) (t : @TargetToolPoses Quat)
    : @PoseStamped Quat :=
  match s with
  | Approach => pick_approach t
  | Pick => pick_pose t
  | Retreat => pick_retreat t
  | Place => place_pose t
  end.

(** Quaternions over the reals, with Eigen's conventions: [(w, x, y, z)],
    the Hamilton product, and [AngleAxisd(a, UnitZ())] as
    [(cos (a/2), 0, 0, sin (a/2))].  Doubles are idealised as exact reals
    and [M_PI] as [PI]. *)
Record quat := mkQuat { qw : R; qx : R; qy : R; qz : R }.

Definition quat_mul (p q : quat) : quat :=
  mkQuat (qw p * qw q - qx p * qx q - qy p * qy q - qz p * qz q)%R
         (qw p * qx q + qx p * qw q + qy p * qz q - qz p * qy q)%R
         (qw p * qy q - qx p * qz q + qy p * qw q + qz p * qx q)%R
         (qw p * qz q + qx p * qy q - qy p * qx q + qz p * qw q)%R.

Definition quat_identity : quat := mkQuat 1 0 0 0.

Definition axis_z (a : R) : quat := mkQuat (cos (a / 2)) 0 0 (sin (a / 2)).

#[export] Instance real_rotations : Rotations R quat :=
  {| q_identity := quat_identity; q_mul := quat_mul; angle_axis_z := axis_z;
     m_pi := PI |}.

Lemma quat_mul_identity_l (q : quat) : quat_mul quat_identity q = q.
Proof. destruct q; unfold quat_mul; cbn; f_equal; ring. Qed.

Lemma axis_z_mul (a b : R) : quat_mul (axis_z a) (axis_z b) = axis_z (a + b).
Proof.
  unfold quat_mul, axis_z; cbn.
  replace ((a + b) / 2)%R with (a / 2 + b / 2)%R by field.
  rewrite cos_plus, sin_plus; f_equal; ring.
Qed.

Lemma pick_rotation_real (angle : R) : pick_rotation angle = axis_z angle.
Proof. apply quat_mul_identity_l. Qed.

Lemma place_rotation_real (angle : R) : place_rotation angle = axis_z (angle + PI).
Proof.
  unfold place_rotation; cbn [q_mul angle_axis_z m_pi real_rotations].
  rewrite pick_rotation_real; apply axis_z_mul.
Qed.

Section Claims9.

Context {Angle Quat : Type} `{ROT : Rotations Angle Quat}.

(** Every plan request of a cycle, for any implementation of the rotations:
    the goal is the segment's target pose rotated by [pick_rotation], or by
    [place_rotation] for the place, and the yaw tolerance is 3.14 for the
    place and [default_z_tolerance] otherwise. *)
Lemma plan_requests_shape
  (env : Env) (angle : Angle) (t : @TargetToolPoses Quat)
  (rest : list (@TargetToolPoses Quat)) :
  let tr :=
    snd (executionTimerCb env angle {| targets_queue := t :: rest; busy := false |}) in
  forall s g goal tol, In (PlanRequest s g goal tol) tr ->
    goal = rotate_pose_funct (segment_pose s t)
             (match s with Place => place_rotation angle | _ => pick_rotation angle end) /\
    tol = (match s with Place => 3.14 | _ => default_z_tolerance end)%float.
Proof.
  rewrite executionTimerCb_cycle; cbn zeta.
  destruct (cycle_body env angle t _) as [r s1] eqn:E.
  exec_cycle E; try contra_branch.
  all: clean_hyps; close_branch E; intros s g goal tol Hin; in_list Hin.
  all: injection Hin as <- <- <- <-; split; reflexivity.
Qed.

End Claims9.

(** C9: with exact quaternions, every goal the cycle plans to keeps the
    stamp and position of its target pose and has its orientation
    multiplied on the right by a rotation about the Z axis: by the preferred
    angle for the approach, pick and retreat, by the angle plus [PI] for the
    place; and the place is planned with a yaw tolerance strictly wider than
    that of every other plan request of the cycle. *)
Theorem goal_rotations_and_tolerances
  (env : Env) (angle : R) (t : @TargetToolPoses quat)
  (rest : list (@TargetToolPoses quat)) :
  let tr :=
    snd (executionTimerCb env angle {| targets_queue := t :: rest; busy := false |}) in
  (forall s g goal tol, In (PlanRequest s g goal tol) tr ->
     stamp goal = stamp (segment_pose s t) /\
     position (pose goal) = position (pose (segment_pose s t)) /\
     orientation (pose goal) =
       quat_mul (orientation (pose (segment_pose s t)))
                (axis_z (match s with Place => angle + PI | _ => angle end))) /\
  (forall g1 goal1 tol1 s2 g2 goal2 tol2,
     In (PlanRequest Place g1 goal1 tol1) tr ->
     In (PlanRequest s2 g2 goal2 tol2) tr -> s2 <> Place ->
     PrimFloat.ltb tol2 tol1 = true).
Proof.
  cbv zeta; split.
  - intros s g goal tol Hin.
    destruct (plan_requests_shape env angle t rest s g goal tol Hin) as [-> _].
    cbn -[pick_rotation place_rotation]; split; [reflexivity|split; [reflexivity|]].
    destruct s; rewrite ?pick_rotation_real, ?place_rotation_real; reflexivity.
  - intros g1 goal1 tol1 s2 g2 goal2 tol2 H1 H2 Hs.
    destruct (plan_requests_shape env angle t rest _ _ _ _ H1) as [_ ->].
    destruct (plan_requests_shape env angle t rest _ _ _ _ H2) as [_ ->].
    destruct s2; [reflexivity|reflexivity|reflexivity|contradiction].
Qed.

(** ** The node's set-up: [loadParameters], [init] and [run] *)

(** [RobotControlInfo]. *)
Record RobotControlInfo := {
  controller_name : string;
  group_name : string;
  wait_pose_name : string
}.

(** The parameter server as [NodeHandle::param] sees it: a value for a name
    when one of the requested type is set. *)
Record Params := {
  string_param : string -> option string;
  double_param : string -> option float
}.

(** [nh_.param<T>(name, var, default)]. *)
Definition param_string (ps : Params) (name default : string) : string :=
  match string_param ps name with Some v => v | None => default end.

Definition param_double (ps : Params) (name : string) (default : float) : float :=
  match double_param ps name with Some v => v | None => default end.

Definition M_PI : float := 3.141592653589793.

(** [#define DEG2RAD(x) (M_PI *x)/180.0] *)
Definition DEG2RAD (x : float) : float := (M_PI * x / 180.0)%float.

Record Parameters := {
  robot_rail_info : RobotControlInfo;
  robot_arm_info : RobotControlInfo;
  prefered_pick_angle_ : float
}.

(** [loadParameters] (it always returns true). *)
Definition loadParameters (ps : Params) : Parameters :=
  {| robot_rail_info :=
       {| group_name := param_string ps "rail_group_name" "robot_rail";
          controller_name := param_string ps "rail_group_name" "robot_rail_controller";
          wait_pose_name := param_string ps "rail_group_wait_pose" "RAIL_ARM_WAIT" |};
     robot_arm_info :=
       {| group_name := param_string ps "arm_group_name" "robot";
          controller_name := param_string ps "arm_group_name" "robot_controller";
          wait_pose_name := param_string ps "arm_group_wait_pose" "ARM_WAIT" |};
     prefered_pick_angle_ := param_double ps "preferred_pick_angle" (DEG2RAD 90.0) |}%string.

Definition TARGET_TOOL_POSES_TOPIC : string := "gilbreth/target_tool_poses".
Definition PLANNING_SERVICE : string := "plan_kinematic_path".
Definition GRIPPER_STATE_TOPIC : string := "gilbreth/gripper/state".
Definition GRIPPER_CONTROL_SERVICE : string := "gilbreth/gripper/control".
Definition CONTROLLER_SERVICE_TOPIC : string := "controller_manager/switch_controller".

(** What [init] does to the outside world. *)
Inductive setup_event :=
| Subscribe (topic : string)
| WaitForService (service : string)
| SkipGroup (g : string)
| LoadMoveGroup (g : string)
| StartExecutionTimer.

(** The answers [init] gets: whether a service shows up within
    [SERVICE_TIMEOUT], and the robot model's joint model group names. *)
Record InitEnv := {
  service_exists : string -> bool;
  joint_model_group_names : list string
}.

(** [std::all_of] over the clients with the [waitForExistence] lambda: it
    stops at the first service that is not found. *)
Fixpoint wait_services (ie : InitEnv) (clients : list string)
    : list setup_event * bool :=
  match clients with
  | [] => ([], true)
  | c :: cs =>
      if service_exists ie c then
        let '(ev, ok) := wait_services ie cs in (WaitForService c :: ev, ok)
      else ([WaitForService c], false)
  end.

(** [std::map::insert] on the keys of [move_groups_map_]: a present key is
    left as it is. *)
Definition map_insert_key (g : string) (m : list string) : list string :=
  if existsb (String.eqb g) m then m else m ++ [g].

(** The loop over [getJointModelGroupNames()]. *)
Fixpoint load_move_groups (rail arm : string) (gs : list string) (m : list string)
    : list string * list setup_event :=
  match gs with
  | [] => (m, [])
  | g :: gs' =>
      if negb (String.eqb g rail) && negb (String.eqb g arm) then
        let '(m', ev) := load_move_groups rail arm gs' m in (m', SkipGroup g :: ev)
      else
        let '(m', ev) := load_move_groups rail arm gs' (map_insert_key g m) in
        (m', LoadMoveGroup g :: ev)
  end.

Record InitResult := {
  init_ok : bool;
  move_groups_map : list string;
  init_events : list setup_event
}.

(** [init]. *)
Definition init (ps : Params) (ie : InitEnv) : InitResult :=
  let p := loadParameters ps in
  let subs := [Subscribe TARGET_TOOL_POSES_TOPIC; Subscribe GRIPPER_STATE_TOPIC] in
  let '(waits, connected) :=
    wait_services ie [PLANNING_SERVICE; GRIPPER_CONTROL_SERVICE; CONTROLLER_SERVICE_TOPIC] in
  if negb connected then
    {| init_ok := false; move_groups_map := []; init_events := subs ++ waits |}
  else
    let '(m, loads) :=
      load_move_groups (group_name (robot_rail_info p)) (group_name (robot_arm_info p))
                       (joint_model_group_names ie) [] in
    match m with
    | [] => {| init_ok := false; move_groups_map := m;
               init_events := subs ++ waits ++ loads |}
    | _ => {| init_ok := true; move_groups_map := m;
              init_events := subs ++ waits ++ loads ++ [StartExecutionTimer] |}
    end.

(** [moveToWaitPose] as [run] calls it, with its lookup
    [move_groups_map_[robot_rail_info_.group_name]]: for a group [init] did
    not load, [operator[]] inserts a null [MoveGroupPtr] and the next line
    dereferences it ([null_deref]: the process goes no further). *)
Definition null_deref {Quat} : @M Quat unit := fun s => (None, s).

Definition moveToWaitPose_lookup {Quat} (groups : list string) (rail : string)
    (async : bool) : @M Quat unit :=
  bind (activateController RobotArm false) (fun _ =>
  bind (activateController RobotRail true) (fun _ =>
  if existsb (String.eqb rail) groups then emit (MoveToNamed RobotRail async)
  else null_deref)).

(** [run]: the node's start, after which it blocks until shutdown.  The
    result is [Some] of what [run] returns, or [None] when it dereferences
    a null move group. *)
Definition run (ps : Params) (ie : InitEnv) (env : Env)
    : option bool * list setup_event * list (@event unit) :=
  let r := init ps ie in
  if negb (init_ok r) then (Some false, init_events r, [])
  else
    let rail := group_name (robot_rail_info (loadParameters ps)) in
    let '(res, st) :=
      bind (setGripper env false) (fun _ => moveToWaitPose_lookup (move_groups_map r) rail false)
        {| proceed := true; busy_flag := false; trace := [] |} in
    (option_map (fun _ => true) res, init_events r, trace st).

Lemma wait_services_spec (ie : InitEnv) (cs : list string) :
  snd (wait_services ie cs) = forallb (service_exists ie) cs.
Proof.
  induction cs as [|c cs IH]; [reflexivity|]; cbn.
  destruct (service_exists ie c); [|reflexivity].
  destruct (wait_services ie cs); exact IH.
Qed.

Lemma map_insert_key_In (g h : string) (m : list string) :
  In h (map_insert_key g m) <-> h = g \/ In h m.
Proof.
  unfold map_insert_key; destruct (existsb (String.eqb g) m) eqn:E.
  - apply existsb_exists in E as (x & Hx & Hgx); apply String.eqb_eq in Hgx; subst x.
    split; [now right|intros [->|H]; assumption].
  - rewrite in_app_iff; cbn; split; intros [H|H]; intuition.
Qed.

Lemma load_move_groups_In (rail arm : string) (gs m : list string) (h : string) :
  In h (fst (load_move_groups rail arm gs m)) <->
  In h m \/ (In h gs /\ (h = rail \/ h = arm)).
Proof.
  revert m; induction gs as [|g gs IH]; intros m; cbn.
  - intuition.
  - destruct (String.eqb g rail) eqn:Er, (String.eqb g arm) eqn:Ea; cbn;
      match goal with |- context [load_move_groups rail arm gs ?m0] =>
        pose proof (IH m0) as IH'; destruct (load_move_groups rail arm gs m0) eqn:E
      end;
      cbn in *; rewrite IH'; rewrite ?map_insert_key_In;
      rewrite ?String.eqb_eq, ?String.eqb_neq in *; intuition congruence.
Qed.

Lemma init_spec (ps : Params) (ie : InitEnv) :
  let p := loadParameters ps in
  let rail := group_name (robot_rail_info p) in
  let arm := group_name (robot_arm_info p) in
  let r := init ps ie in
  (init_ok r = true <->
     forallb (service_exists ie)
       [PLANNING_SERVICE; GRIPPER_CONTROL_SERVICE; CONTROLLER_SERVICE_TOPIC] = true /\
     exists g, In g (joint_model_group_names ie) /\ (g = rail \/ g = arm)) /\
  (forall g, In g (move_groups_map r) <->
     init_ok r = true /\ In g (joint_model_group_names ie) /\ (g = rail \/ g = arm)).
Proof.
  cbv zeta; unfold init.
  pose proof (wait_services_spec ie
    [PLANNING_SERVICE; GRIPPER_CONTROL_SERVICE; CONTROLLER_SERVICE_TOPIC]) as Hw.
  destruct (wait_services ie _) as [waits connected]; cbn [snd] in Hw; rewrite <- Hw.
  destruct connected; cbn [negb].
  - pose proof (fun h => load_move_groups_In
      (group_name (robot_rail_info (loadParameters ps)))
      (group_name (robot_arm_info (loadParameters ps)))
      (joint_model_group_names ie) [] h) as Hm.
    destruct (load_move_groups _ _ (joint_model_group_names ie) []) as [m loads].
    cbn [fst] in Hm.
    destruct m as [|g0 m]; cbn [init_ok move_groups_map].
    + split.
      * split; [discriminate|]. intros [_ (g & Hg & Hr)].
        destruct (proj2 (Hm g) (or_intror (conj Hg Hr))).
      * intros g; split; [intros []|intros [H _]; discriminate].
    + split.
      * split; [intros _; split; [reflexivity|]|intros _; reflexivity].
        destruct (proj1 (Hm g0) (or_introl eq_refl)) as [[]|[Hg Hr]].
        exists g0; split; assumption.
      * intros g; rewrite Hm; cbn; intuition.
  - split.
    + split; [discriminate|intros [H _]; discriminate].
    + intros g; split; [intros []|intros [H _]; discriminate].
Qed.

(** [init] succeeds exactly when the three services exist and at least one
    of the model's groups is the rail or the arm group (one of the two is
    enough); [move_groups_map_] then holds exactly those groups, and it
    stays empty when [init] fails. *)
Lemma init_succeeds_iff (ps : Params) (ie : InitEnv) :
  let p := loadParameters ps in
  let rail := group_name (robot_rail_info p) in
  let arm := group_name (robot_arm_info p) in
  let r := init ps ie in
  (init_ok r = true <->
     forallb (service_exists ie)
       [PLANNING_SERVICE; GRIPPER_CONTROL_SERVICE; CONTROLLER_SERVICE_TOPIC] = true /\
     exists g, In g (joint_model_group_names ie) /\ (g = rail \/ g = arm)) /\
  (forall g, In g (move_groups_map r) <->
     init_ok r = true /\ In g (joint_model_group_names ie) /\ (g = rail \/ g = arm)).
Proof. exact (init_spec ps ie). Qed.

(** [run] starts the node exactly when the three services exist and the
    model has the rail group.  When the services exist and the model has
    the arm group but not the rail group, [init] succeeds but [run]
    dereferences a null move group, after the release request and the
    controller switch to the rail; otherwise it returns false having issued
    nothing.  After a start the gripper is asked released, the rail
    controller active and the arm controller inactive, and the rail is
    moved synchronously to its wait pose. *)
Lemma run_start (ps : Params) (ie : InitEnv) (env : Env) :
  let p := loadParameters ps in
  let rail := group_name (robot_rail_info p) in
  let arm := group_name (robot_arm_info p) in
  let services_ok := forallb (service_exists ie)
       [PLANNING_SERVICE; GRIPPER_CONTROL_SERVICE; CONTROLLER_SERVICE_TOPIC] = true in
  let gs := joint_model_group_names ie in
  let '(res, _, ev) := run ps ie env in
  (res = Some true <-> services_ok /\ In rail gs) /\
  (res = None <-> services_ok /\ ~ In rail gs /\ In arm gs) /\
  (res = Some false <-> ~ services_ok \/ (~ In rail gs /\ ~ In arm gs)) /\
  (res = Some false -> ev = []) /\
  (res = None ->
     ev = [GripperRequest false; SwitchController RobotArm false;
           SwitchController RobotRail true]) /\
  (res = Some true ->
     requested_gripper true ev = false /\
     (forall c0, requested_controllers c0 ev RobotRail = true /\
                 requested_controllers c0 ev RobotArm = false) /\
     In (MoveToNamed RobotRail false) ev /\ ~ In (MoveToNamed RobotRail true) ev).
Proof.
  cbv zeta.
  destruct (init_spec ps ie) as [Hok Hmap]; cbv zeta in Hok, Hmap.
  set (rail := group_name (robot_rail_info (loadParameters ps))) in *.
  set (arm := group_name (robot_arm_info (loadParameters ps))) in *.
  set (svc := forallb (service_exists ie) _) in *.
  unfold run; fold rail.
  destruct (init_ok (init ps ie)) eqn:Eok; cbn [negb].
  - destruct (proj1 Hok eq_refl) as [Hsvc (g & Hg & Hga)].
    destruct (existsb (String.eqb rail) (move_groups_map (init ps ie))) eqn:Ex.
    + assert (Hr : In rail (joint_model_group_names ie)).
      { apply existsb_exists in Ex as (x & Hx & Hrx); apply String.eqb_eq in Hrx.
        subst x; apply Hmap in Hx; apply Hx. }
      cbv [moveToWaitPose_lookup setGripper bind emit ret activateController]; rewrite Ex.
      cbn.
      split; [split; [intros _; split; assumption|reflexivity]|].
      split; [split; [discriminate|intros (_ & Hn & _); contradiction]|].
      split; [split; [discriminate|intros [Hn|[Hn _]]; contradiction]|].
      split; [discriminate|split; [discriminate|intros _]].
      split; [reflexivity|split; [intros c0; split; reflexivity|]].
      split; [right; right; right; left; reflexivity|].
      intros H; repeat destruct H as [H|H]; try discriminate; contradiction.
    + assert (Hr : ~ In rail (joint_model_group_names ie)).
      { intros Hr.
        assert (In rail (move_groups_map (init ps ie))) as Hx
          by (apply Hmap; split; [reflexivity|split; [exact Hr|left; reflexivity]]).
        assert (existsb (String.eqb rail) (move_groups_map (init ps ie)) = true)
          by (apply existsb_exists; exists rail; split; [exact Hx|apply String.eqb_refl]).
        congruence. }
      assert (Ha : In arm (joint_model_group_names ie))
        by (destruct Hga as [->| ->]; [contradiction|exact Hg]).
      cbv [moveToWaitPose_lookup setGripper bind emit ret activateController null_deref];
        rewrite Ex; cbn.
      split; [split; [discriminate|intros [_ Hn]; contradiction]|].
      split; [split; [intros _; split; [exact Hsvc|split; assumption]|reflexivity]|].
      split; [split; [discriminate|intros [Hn|[_ Hn]]; contradiction]|].
      split; [discriminate|split; [intros _; reflexivity|discriminate]].
  - assert (Hno : ~ (svc = true /\ exists g, In g (joint_model_group_names ie) /\ (g = rail \/ g = arm)))
      by (intros H; apply Hok in H; discriminate).
    cbn.
    split; [split; [discriminate|intros [Hs Hr]; exfalso; apply Hno;
            split; [exact Hs|exists rail; split; [exact Hr|left; reflexivity]]]|].
    split; [split; [discriminate|intros (Hs & _ & Ha); exfalso; apply Hno;
            split; [exact Hs|exists arm; split; [exact Ha|right; reflexivity]]]|].
    split; [split; [intros _|reflexivity]|].
    + destruct (Bool.bool_dec svc true) as [Hs|Hs]; [right|left; exact Hs].
      split; intros Hin; apply Hno; split; try exact Hs.
      * exists rail; split; [exact Hin|left; reflexivity].
      * exists arm; split; [exact Hin|right; reflexivity].
    + split; [intros _; reflexivity|split; discriminate].
Qed.

Lemma last_default_irrelevant {A} (l : list A) (d1 d2 : A) :
  l <> [] -> last l d1 = last l d2.
Proof.
  induction l as [|a l IH]; [contradiction|intros _].
  destruct l as [|b l]; [reflexivity|].
  cbn in *; apply IH; discriminate.
Qed.

(** [curateTrajectory] leaves the duration used by the deadline gate
    unchanged when the trajectory has two waypoints or more; a single
    waypoint trajectory is given a duration of 10 ms. *)
Lemma curateTrajectory_duration (jt : Trajectory) :
  traj_duration (curateTrajectory jt) =
  match rest_points jt with [] => 10000000%Z | _ => traj_duration jt end.
Proof.
  unfold traj_duration; cbn.
  destruct (rest_points jt) as [|p ps] eqn:E; [reflexivity|].
  apply last_default_irrelevant; discriminate.
Qed.

(** ** [fuse_vectors] *)

(** [std::map<std::string,double>::insert]: an existing key keeps its value. *)
Fixpoint map_insert {V} (k : string) (v : V) (m : list (string * V))
    : list (string * V) :=
  match m with
  | [] => [(k, v)]
  | (k', v') :: m' => if String.eqb k k' then m else (k', v') :: map_insert k v m'
  end.

Fixpoint map_find {V} (k : string) (m : list (string * V)) : option V :=
  match m with
  | [] => None
  | (k', v') :: m' => if String.eqb k k' then Some v' else map_find k m'
  end.

(** The [fuse_vectors] lambda: [m.insert(make_pair(keys[i], vals[i]))] for
    [i < keys.size()]; reading [vals[i]] past its end is undefined, [None]. *)
Fixpoint fuse_loop (m : list (string * float)) (keys : list string) (vals : list float)
    : option (list (string * float)) :=
  match keys with
  | [] => Some m
  | k :: ks =>
      match vals with
      | [] => None
      | v :: vs => fuse_loop (map_insert k v m) ks vs
      end
  end.

Definition fuse_vectors (keys : list string) (vals : list float)
    : option (list (string * float)) :=
  fuse_loop [] keys vals.

Lemma map_find_insert {V} (k k' : string) (v : V) (m : list (string * V)) :
  map_find k (map_insert k' v m) =
  match map_find k m with
  | Some w => Some w
  | None => if String.eqb k k' then Some v else None
  end.
Proof.
  induction m as [|[k1 v1] m IH]; cbn.
  - reflexivity.
  - destruct (String.eqb k' k1) eqn:E1.
    + apply String.eqb_eq in E1; subst k1; cbn.
      destruct (String.eqb k k') eqn:E2; [reflexivity|].
      destruct (map_find k m); reflexivity.
    + cbn; destruct (String.eqb k k1) eqn:E2; [reflexivity|exact IH].
Qed.

(** The value the first occurrence of [k] in [ks] is paired with. *)
Fixpoint first_value (k : string) (ks : list string) (vs : list float) : option float :=
  match ks, vs with
  | k' :: ks', v :: vs' => if String.eqb k k' then Some v else first_value k ks' vs'
  | _, _ => None
  end.

Lemma fuse_loop_none (m : list (string * float)) (keys : list string) (vals : list float) :
  fuse_loop m keys vals = None <-> length vals < length keys.
Proof.
  revert m vals; induction keys as [|k ks IH]; intros m vals; cbn.
  - split; [discriminate|lia].
  - destruct vals as [|v vs]; cbn; [split; [lia|reflexivity]|].
    rewrite IH; lia.
Qed.

Lemma fuse_loop_some (m : list (string * float)) (keys : list string) (vals : list float) :
  length keys <= length vals ->
  exists m', fuse_loop m keys vals = Some m' /\
    forall k, map_find k m' =
      match map_find k m with Some w => Some w | None => first_value k keys vals end.
Proof.
  revert m vals; induction keys as [|k0 ks IH]; intros m vals Hl.
  - exists m; split; [reflexivity|]. intros k; destruct (map_find k m); reflexivity.
  - destruct vals as [|v vs]; [cbn in Hl; lia|].
    cbn in Hl; destruct (IH (map_insert k0 v m) vs ltac:(lia)) as (m' & Hm' & Hf).
    exists m'; split; [exact Hm'|]; intros k; rewrite Hf, map_find_insert; cbn.
    destruct (map_find k m); [reflexivity|].
    destruct (String.eqb k k0); reflexivity.
Qed.

Lemma first_value_notin (k : string) (ks : list string) (vs : list float) :
  ~ In k ks -> first_value k ks vs = None.
Proof.
  revert vs; induction ks as [|k' ks IH]; intros vs Hn; [reflexivity|].
  destruct vs as [|v vs]; [reflexivity|]; cbn.
  destruct (String.eqb k k') eqn:E.
  - apply String.eqb_eq in E; subst; exfalso; apply Hn; left; reflexivity.
  - apply IH; intros H; apply Hn; right; exact H.
Qed.

Lemma first_value_at (k : string) (pre post : list string) (vs : list float) :
  ~ In k pre -> length (pre ++ k :: post) <= length vs ->
  first_value k (pre ++ k :: post) vs = nth_error vs (length pre).
Proof.
  revert vs; induction pre as [|k' pre IH]; intros vs Hn Hl;
    (destruct vs as [|v vs]; [cbn in Hl; lia|]); cbn.
  - rewrite String.eqb_refl; reflexivity.
  - destruct (String.eqb k k') eqn:E.
    + apply String.eqb_eq in E; subst; exfalso; apply Hn; left; reflexivity.
    + apply IH; [intros H; apply Hn; right; exact H|cbn in Hl; lia].
Qed.

(** [fuse_vectors] reads past the end of [vals] (undefined) exactly when
    it is shorter than [keys]; otherwise each key is mapped to the value at
    its first occurrence (later duplicates are ignored by [insert]), and
    no other name is in the map. *)
Theorem fuse_vectors_lookup (keys : list string) (vals : list float) :
  (fuse_vectors keys vals = None <-> length vals < length keys) /\
  (length keys <= length vals ->
   exists m, fuse_vectors keys vals = Some m /\
     (forall k, ~ In k keys -> map_find k m = None) /\
     (forall pre k post, keys = pre ++ k :: post -> ~ In k pre ->
        map_find k m = nth_error vals (length pre))).
Proof.
  split; [apply fuse_loop_none|intros Hl].
  destruct (fuse_loop_some [] keys vals Hl) as (m & Hm & Hf).
  exists m; split; [exact Hm|split].
  - intros k Hk; rewrite Hf; apply first_value_notin; exact Hk.
  - intros pre k post -> Hn; rewrite Hf; apply first_value_at; assumption.
Qed.

Lemma executed_segments_repeat_sleep {Quat} (d : Z) (n : nat) (l : list (@event Quat)) :
  executed_segments (repeat (Sleep d) n ++ l) = executed_segments l.
Proof. induction n as [|n IH]; [reflexivity|exact IH]. Qed.

(** ** Segments, groups and plans of a cycle *)

(** The group [executionTimerCb] plans and executes each segment on. *)
Definition segment_group (s : segment) : group :=
  match s with Approach | Place => RobotRail | Pick | Retreat => RobotArm end.

(** The segments planned, in request order. *)
Fixpoint planned_segments {Quat} (l : list (@event Quat)) : list segment :=
  match l with
  | [] => []
  | PlanRequest s _ _ _ :: r => s :: planned_segments r
  | _ :: r => planned_segments r
  end.

Lemma planned_segments_repeat_sleep {Quat} (d : Z) (n : nat) (l : list (@event Quat)) :
  planned_segments (repeat (Sleep d) n ++ l) = planned_segments l.
Proof. induction n as [|n IH]; [reflexivity|exact IH]. Qed.

Definition segment_eqb (s s' : segment) : bool :=
  match s, s' with
  | Approach, Approach | Pick, Pick | Retreat, Retreat | Place, Place => true
  | _, _ => false
  end.

Lemma segment_eqb_eq (s s' : segment) : segment_eqb s s' = true -> s = s'.
Proof. destruct s, s'; cbn; congruence. Qed.

Lemma group_eqb_eq (g h : group) : group_eqb g h = true -> g = h.
Proof. destruct g, h; cbn; congruence. Qed.

(** Walks the events with the (segment, group) pairs planned so far: every
    execution is of a pair already planned. *)
Fixpoint executions_follow_plans {Quat} (planned : list (segment * group))
    (l : list (@event Quat)) : bool :=
  match l with
  | [] => true
  | PlanRequest s g _ _ :: r => executions_follow_plans ((s, g) :: planned) r
  | Execute s g _ :: r =>
      existsb (fun '(s', g') => segment_eqb s s' && group_eqb g g') planned &&
      executions_follow_plans planned r
  | _ :: r => executions_follow_plans planned r
  end.

Lemma executions_follow_plans_repeat_sleep {Quat} (planned : list (segment * group))
    (d : Z) (n : nat) (l : list (@event Quat)) :
  executions_follow_plans planned (repeat (Sleep d) n ++ l) =
  executions_follow_plans planned l.
Proof. induction n as [|n IH]; [reflexivity|exact IH]. Qed.

Lemma executions_follow_plans_sound {Quat} (planned : list (segment * group))
    (pre post : list (@event Quat)) (s : segment) (g : group) (jt : Trajectory) :
  executions_follow_plans planned (pre ++ Execute s g jt :: post) = true ->
  In (s, g) planned \/ exists goal tol, In (PlanRequest s g goal tol) pre.
Proof.
  revert planned; induction pre as [|e pre IH]; intros planned H.
  - cbn in H; apply andb_prop in H as [H _].
    apply existsb_exists in H as ([s' g'] & Hin & Hsg).
    apply andb_prop in Hsg as [Hs Hg].
    apply segment_eqb_eq in Hs; apply group_eqb_eq in Hg; subst; left; exact Hin.
  - destruct e; cbn in H;
      try (apply andb_prop in H as [_ H]);
      destruct (IH _ H) as [Hp|(goal0 & tol0 & Hp)];
      try (right; exists goal0, tol0; right; exact Hp);
      try (left; exact Hp).
    destruct Hp as [Hp|Hp].
    + injection Hp as -> ->; right; exists goal, z_tol; left; reflexivity.
    + left; exact Hp.
Qed.

Section Cycle.

Context {Angle Quat : Type} `{ROT : Rotations Angle Quat}.

Lemma cycle_executions_follow_plans
  (env : Env) (angle : Angle) (t : @TargetToolPoses Quat)
  (rest : list (@TargetToolPoses Quat)) :
  executions_follow_plans []
    (snd (executionTimerCb env angle {| targets_queue := t :: rest; busy := false |})) = true.
Proof.
  rewrite executionTimerCb_cycle; cbn zeta.
  destruct (cycle_body env angle t _) as [r s1] eqn:E.
  exec_cycle E; try contra_branch.
  all: clean_hyps; close_branch E; cbn; repeat rewrite <- app_assoc; cbn;
       repeat (rewrite executions_follow_plans_repeat_sleep; cbn); reflexivity.
Qed.

(** In every cycle the executed segments are a prefix of approach, pick,
    retreat, place (each at most once, in that order); every execution runs
    on the rail for approach and place and on the arm for pick and retreat,
    and executes the curated plan of its segment; and every execution comes
    after a plan request of its segment on its group. *)
Theorem cycle_executions
  (env : Env) (angle : Angle) (t : @TargetToolPoses Quat)
  (rest : list (@TargetToolPoses Quat)) :
  let tr :=
    snd (executionTimerCb env angle {| targets_queue := t :: rest; busy := false |}) in
  (exists n, executed_segments tr = firstn n [Approach; Pick; Retreat; Place]) /\
  (forall s g jt, In (Execute s g jt) tr ->
     g = segment_group s /\
     (exists jt0, plan_result env s = Some jt0 /\ jt = curateTrajectory jt0)) /\
  (forall pre s g jt post, tr = pre ++ Execute s g jt :: post ->
     exists goal tol, In (PlanRequest s g goal tol) pre).
Proof.
  cbv zeta; split; [|split; [|intros pre s g jt post Heq]].
  3: { pose proof (cycle_executions_follow_plans env angle t rest) as Hf.
       rewrite Heq in Hf.
       destruct (executions_follow_plans_sound [] pre post s g jt Hf) as [[]|H].
       exact H. }
  all: rewrite executionTimerCb_cycle; cbn zeta.
  all: destruct (cycle_body env angle t _) as [r s1] eqn:E.
  all: exec_cycle E; try contra_branch.
  all: clean_hyps; close_branch E.
  all: try (cbn; repeat rewrite <- app_assoc; cbn;
            repeat (rewrite executed_segments_repeat_sleep; cbn);
            first [exists 0%nat; reflexivity | exists 1%nat; reflexivity
                  | exists 2%nat; reflexivity | exists 3%nat; reflexivity
                  | exists 4%nat; reflexivity]).
  all: intros s g jt Hin; in_list Hin; injection Hin as <- <- <-;
       (split; [reflexivity|eexists; split; [eassumption|reflexivity]]).
Qed.

(** In every cycle the plan requests are a prefix of approach, pick,
    retreat, place, each on its segment's group. *)
Theorem cycle_plan_requests
  (env : Env) (angle : Angle) (t : @TargetToolPoses Quat)
  (rest : list (@TargetToolPoses Quat)) :
  let tr :=
    snd (executionTimerCb env angle {| targets_queue := t :: rest; busy := false |}) in
  (exists n, planned_segments tr = firstn n [Approach; Pick; Retreat; Place]) /\
  (forall s g goal tol, In (PlanRequest s g goal tol) tr -> g = segment_group s).
Proof.
  rewrite executionTimerCb_cycle; cbn zeta.
  destruct (cycle_body env angle t _) as [r s1] eqn:E.
  exec_cycle E; try contra_branch.
  all: clean_hyps; close_branch E; split.
  all: try (cbn; repeat rewrite <- app_assoc; cbn;
            repeat (rewrite planned_segments_repeat_sleep; cbn);
            first [exists 0%nat; reflexivity | exists 1%nat; reflexivity
                  | exists 2%nat; reflexivity | exists 3%nat; reflexivity
                  | exists 4%nat; reflexivity]).
  all: intros s g goal tol Hin; in_list Hin; injection Hin as <- <- _ _; reflexivity.
Qed.

End Cycle.

